(** * Monte Carlo stock price simulation: the numerical kernel of streamlit_app.py

    The script's [geo_paths] builds a (steps, N) array of geometric Brownian
    motion prices from a block of standard-normal draws, and the page reports
    the mean and the standard deviation of the last row.

    Numbers.  Python floats and numpy float64 values are modelled as exact
    reals extended with the three IEEE special values that the operations of
    the script can produce (log of zero, square root of a negative number,
    zero divided by zero).  Rounding, overflow and underflow are not
    modelled: a finite value is a real number, the exponential never
    saturates, and the exceptions that Python and numpy raise on values out
    of the float64 or index range (OverflowError, the upper limit on an
    array dimension) do not occur.  The statements below are therefore about
    values up to rounding, for arguments within those ranges.

    Draws.  [np.random.normal] reads the global generator; the generator is
    modelled as the sequence of draws it will hand out next, and the
    simulator threads it explicitly. *)

From Stdlib Require Import String Reals Lra Lia ZArith Bool List Permutation.
Import ListNotations.

Open Scope R_scope.

(** ** numpy float64 values *)

Inductive float64 : Type :=
| Fin (x : R)
| PInf
| NInf
| NaN.

(** [a + b] *)
Definition f_add (a b : float64) : float64 :=
  match a, b with
  | NaN, _ | _, NaN => NaN
  | Fin x, Fin y => Fin (x + y)
  | PInf, NInf | NInf, PInf => NaN
  | PInf, _ | _, PInf => PInf
  | NInf, _ | _, NInf => NInf
  end.

Definition f_neg (a : float64) : float64 :=
  match a with
  | Fin x => Fin (- x)
  | PInf => NInf
  | NInf => PInf
  | NaN => NaN
  end.

(** [a - b] *)
Definition f_sub (a b : float64) : float64 := f_add a (f_neg b).

(** An infinity scaled by a finite factor: the sign follows the factor, and
    a zero factor gives NaN. *)
Definition scale_inf (positive : bool) (x : R) : float64 :=
  if Rlt_dec 0 x then (if positive then PInf else NInf)
  else if Rlt_dec x 0 then (if positive then NInf else PInf)
  else NaN.

(** [a * b] *)
Definition f_mul (a b : float64) : float64 :=
  match a, b with
  | NaN, _ | _, NaN => NaN
  | Fin x, Fin y => Fin (x * y)
  | PInf, Fin y => scale_inf true y
  | NInf, Fin y => scale_inf false y
  | Fin x, PInf => scale_inf true x
  | Fin x, NInf => scale_inf false x
  | PInf, PInf | NInf, NInf => PInf
  | PInf, NInf | NInf, PInf => NInf
  end.

(** [np.sqrt] *)
Definition np_sqrt (a : float64) : float64 :=
  match a with
  | Fin x => if Rlt_dec x 0 then NaN else Fin (sqrt x)
  | PInf => PInf
  | NInf => NaN
  | NaN => NaN
  end.

(** [np.log]: minus infinity at zero, NaN below zero (numpy warns, it does
    not raise). *)
Definition np_log (a : float64) : float64 :=
  match a with
  | Fin x => if Rlt_dec 0 x then Fin (ln x)
             else if Rlt_dec x 0 then NaN else NInf
  | PInf => PInf
  | NInf => NaN
  | NaN => NaN
  end.

(** [np.exp], exact on finite values: that float64's exponential gives
    infinity above about 709.78 and 0 below about -745.13 is not
    represented. *)
Definition np_exp (a : float64) : float64 :=
  match a with
  | Fin x => Fin (exp x)
  | PInf => PInf
  | NInf => Fin 0
  | NaN => NaN
  end.

(** [a / n] for an item count [n], as the reductions of numpy divide: a
    count of zero gives NaN for a zero sum and an infinity otherwise. *)
Definition div_count (a : float64) (n : nat) : float64 :=
  match n with
  | O => match a with
         | Fin x => if Rlt_dec 0 x then PInf
                    else if Rlt_dec x 0 then NInf else NaN
         | _ => a
         end
  | S _ => match a with
           | Fin x => Fin (x / INR n)
           | _ => a
           end
  end.

(** *** Arrays *)

Definition array1 := list float64.
Definition array2 := list array1.

(** Elementwise sum of two rows of the same length. *)
Fixpoint add_rows (a b : array1) : array1 :=
  match a, b with
  | x :: a', y :: b' => f_add x y :: add_rows a' b'
  | _, _ => []
  end.

(** [np.cumsum(a, axis=0)]: row 0 is kept, every later row is the running
    sum of the rows down to it. *)
Fixpoint cumsum_from (acc : array1) (rows : array2) : array2 :=
  match rows with
  | [] => []
  | r :: rs => let acc' := add_rows acc r in acc' :: cumsum_from acc' rs
  end.

Definition np_cumsum (a : array2) : array2 :=
  match a with
  | [] => []
  | r :: rs => r :: cumsum_from r rs
  end.

(** [a.sum()] of a one-dimensional array. *)
Definition np_sum (a : array1) : float64 := fold_left f_add a (Fin 0).

(** [a.mean()]: the sum over the item count. *)
Definition np_mean (a : array1) : float64 := div_count (np_sum a) (length a).

(** [a.var()] with numpy's default [ddof=0]: the mean is subtracted, the
    differences are squared and summed, and the sum is divided by
    [max(count - ddof, 0)]. *)
Definition np_var (a : array1) : float64 :=
  let arrmean := np_mean a in
  let x := map (fun v => f_sub v arrmean) a in
  let x2 := map (fun v => f_mul v v) x in
  div_count (np_sum x2) (length a - 0).

(** [a.std()] *)
Definition np_std (a : array1) : float64 := np_sqrt (np_var a).

(** ** Exceptions *)

Inductive exn : Type :=
| ZeroDivisionError
| ValueError
| IndexError.

Inductive result (A : Type) : Type :=
| Ok (a : A)
| Raise (e : exn).

Arguments Ok {A} a.
Arguments Raise {A} e.

Definition raises {A : Type} (x : result A) : Prop :=
  match x with Raise _ => True | Ok _ => False end.

(** ** The random source *)

(** The state of numpy's global generator: draw [k] of the sequence is the
    [k]-th standard-normal value it will hand out from now on. *)
Definition rng := nat -> R.

Definition advance (n : nat) (g : rng) : rng := fun k => g (n + k)%nat.

(** A (rows, cols) array filled by [f]. *)
Definition table (rows cols : nat) (f : nat -> nat -> float64) : array2 :=
  map (fun i => map (fun j => f i j) (seq 0 cols)) (seq 0 rows).

(** [np.random.normal(size=(steps, N))]: a negative dimension is refused
    with ValueError before anything is drawn; otherwise the block is filled
    in row-major order from the next [steps * N] draws.  numpy's upper limit
    on a dimension is not represented. *)
Definition np_random_normal (steps N : Z) (g : rng) : result array2 * rng :=
  if ((steps <? 0) || (N <? 0))%Z then (Raise ValueError, g)
  else
    let s := Z.to_nat steps in
    let n := Z.to_nat N in
    (Ok (table s n (fun i j => Fin (g (i * n + j)%nat))), advance (s * n) g).

(** ** The path simulator *)

(** [geo_paths(S, T, r, q, sigma, steps, N)].  [S], [T], [r], [q] and
    [sigma] are Python floats, [steps] and [N] Python ints.  The division
    [T / steps] is Python's and raises at zero; the operands of the sum are
    evaluated left to right, so the draws are requested last.  Python's
    OverflowError ([sigma ** 2] beyond the float range, a step count too
    large to convert to a float) is not represented. *)
Definition geo_paths (S T r q sigma : R) (steps N : Z) (g : rng)
  : result array2 * rng :=
  if (steps =? 0)%Z then (Raise ZeroDivisionError, g)
  else
    let dt := T / IZR steps in
    let logS := np_log (Fin S) in
    let drift := Fin ((r - q - sigma ^ 2 / 2) * dt) in
    let vol := f_mul (Fin sigma) (np_sqrt (Fin dt)) in
    match np_random_normal steps N g with
    | (Raise e, g') => (Raise e, g')
    | (Ok z, g') =>
        let inc := map (map (fun zij => f_add drift (f_mul vol zij))) z in
        let ST := map (map (f_add logS)) (np_cumsum inc) in
        (Ok (map (map np_exp) ST), g')
    end.

(** ** Terminal statistics *)

(** [paths[-1]] *)
Definition last_row (paths : array2) : result array1 :=
  match paths with
  | [] => Raise IndexError
  | r :: rs => Ok (last rs r)
  end.

(** The two figures of the page: [paths[-1].mean()] and [paths[-1].std()]. *)
Definition terminal_stats (paths : array2) : result (float64 * float64) :=
  match last_row paths with
  | Raise e => Raise e
  | Ok row => Ok (np_mean row, np_std row)
  end.

(** ** The page *)

(** The values of the sidebar widgets. *)
Record sidebar : Type := {
  stock_ticker : string;
  K : Z;
  r : R;
  sigma : R;
  T : R;
  N : Z
}.

(** "Time steps fixed at 100 for now". *)
Definition steps : Z := 100.

(** The simulation of one run of the script, [S0] being the latest closing
    price: nothing is simulated for an empty ticker; otherwise [geo_paths]
    is called with the sidebar's values and a yield of [0]. *)
Definition page_paths (sb : sidebar) (S0 : R) (g : rng)
  : option (result array2 * rng) :=
  if String.eqb (stock_ticker sb) EmptyString then None
  else Some (geo_paths S0 (T sb) (r sb) 0 (sigma sb) steps (N sb) g).

(** ** Reading an array *)

Definition entry (a : array2) (i j : nat) : option float64 :=
  match nth_error a i with
  | Some row => nth_error row j
  | None => None
  end.

(** Column [j], one cell per row. *)
Definition column (a : array2) (j : nat) : list (option float64) :=
  map (fun row => nth_error row j) a.

(** Shape (rows, cols). *)
Definition has_shape (a : array2) (rows cols : nat) : Prop :=
  length a = rows /\ Forall (fun row => length row = cols) a.

(** ** Sums used in the statements *)

(** [f 0 + f 1 + ... + f i] *)
Fixpoint sum_upto (f : nat -> R) (i : nat) : R :=
  match i with
  | O => f O
  | S i' => sum_upto f i' + f i
  end.

(** The same running sum over array values, in the order [np.cumsum] adds. *)
Fixpoint psum (a : nat -> float64) (i : nat) : float64 :=
  match i with
  | O => a O
  | S i' => f_add (psum a i') (a i)
  end.

(** Sum of a list of reals. *)
Definition Rsum (xs : list R) : R := fold_right Rplus 0 xs.

(** ** The cells of the simulator's output *)

(** The log-increment of cell (i, j) as the code forms it. *)
Definition increment (T r q sigma : R) (steps N : Z) (g : rng) (i j : nat)
  : float64 :=
  f_add (Fin ((r - q - sigma ^ 2 / 2) * (T / IZR steps)))
        (f_mul (f_mul (Fin sigma) (np_sqrt (Fin (T / IZR steps))))
               (Fin (g (i * Z.to_nat N + j)%nat))).

(** The cell (i, j) for valid parameters. *)
Definition gbm_cell (S T r q sigma : R) (steps N : Z) (g : rng) (i j : nat) : R :=
  S * exp (sum_upto (fun k => (r - q - sigma ^ 2 / 2) * (T / IZR steps)
                              + sigma * sqrt (T / IZR steps)
                                * g (k * Z.to_nat N + j)%nat) i).

(** A cell of a returned array; nothing when the call raised. *)
Definition result_entry (x : result array2) (i j : nat) : option float64 :=
  match x with
  | Ok a => entry a i j
  | Raise _ => None
  end.

(** A column of a returned array, or the exception. *)
Definition result_column (x : result array2) (j : nat)
  : result (list (option float64)) :=
  match x with
  | Ok a => Ok (column a j)
  | Raise e => Raise e
  end.



(** The generator that hands out zero at every draw. *)
Definition zero_draws : rng := fun _ => 0.

(** ** The figures of the page *)

(** What the page writes under the chart: nothing for an empty ticker; the
    exception when [geo_paths] raised (the script stops there); otherwise
    the mean and the standard deviation of [paths[-1]]. *)
Definition page_stats (sb : sidebar) (S0 : R) (g : rng)
  : option (result (float64 * float64)) :=
  match page_paths sb S0 g with
  | None => None
  | Some (Raise e, _) => Some (Raise e)
  | Some (Ok paths, _) => Some (terminal_stats paths)
  end.

(** The time of row [i] on the grid: row 0 is one step after the start. *)
Definition grid_time (T : R) (steps : Z) (i : nat) : R :=
  (INR i + 1) * (T / IZR steps).

(** * Properties *)

(** ** Tables and running sums *)

Lemma table_length (rows cols : nat) (f : nat -> nat -> float64) :
  length (table rows cols f) = rows.
Proof. unfold table. now rewrite length_map, length_seq. Qed.

Lemma table_has_shape (rows cols : nat) (f : nat -> nat -> float64) :
  has_shape (table rows cols f) rows cols.
Proof.
  split; [apply table_length|].
  unfold table. apply Forall_forall. intros row Hin.
  apply in_map_iff in Hin. destruct Hin as [i [<- _]].
  now rewrite length_map, length_seq.
Qed.

Lemma nth_error_map_seq {A : Type} (f : nat -> A) (n i : nat) :
  (i < n)%nat -> nth_error (map f (seq 0 n)) i = Some (f i).
Proof.
  intros Hi. rewrite nth_error_map, nth_error_seq.
  destruct (Nat.ltb_spec i n) as [_|Hge]; [reflexivity | lia].
Qed.

Lemma entry_table (rows cols : nat) (f : nat -> nat -> float64) (i j : nat) :
  (i < rows)%nat -> (j < cols)%nat -> entry (table rows cols f) i j = Some (f i j).
Proof.
  intros Hi Hj. unfold entry, table.
  rewrite (nth_error_map_seq _ rows i Hi).
  now apply nth_error_map_seq.
Qed.

Lemma table_map (rows cols : nat) (f : nat -> nat -> float64)
      (h : float64 -> float64) :
  map (map h) (table rows cols f) = table rows cols (fun i j => h (f i j)).
Proof.
  unfold table. rewrite map_map. apply map_ext. intros i. now rewrite map_map.
Qed.

Lemma table_ext (rows cols : nat) (f h : nat -> nat -> float64) :
  (forall i j, (i < rows)%nat -> (j < cols)%nat -> f i j = h i j) ->
  table rows cols f = table rows cols h.
Proof.
  intros E. unfold table. apply map_ext_in. intros i Hi.
  apply in_seq in Hi. apply map_ext_in. intros j Hj. apply in_seq in Hj.
  apply E; lia.
Qed.

Lemma add_rows_map (f h : nat -> float64) (l : list nat) :
  add_rows (map f l) (map h l) = map (fun j => f_add (f j) (h j)) l.
Proof. induction l as [|j l IH]; simpl; [reflexivity | now rewrite IH]. Qed.

Lemma cumsum_from_rows (cols : nat) (a : nat -> nat -> float64) (m k : nat) :
  cumsum_from (map (fun j => psum (fun i => a i j) k) (seq 0 cols))
              (map (fun i => map (fun j => a i j) (seq 0 cols)) (seq (S k) m))
  = map (fun i => map (fun j => psum (fun i' => a i' j) i) (seq 0 cols))
        (seq (S k) m).
Proof.
  revert k. induction m as [|m IH]; intros k; simpl; [reflexivity|].
  rewrite add_rows_map. simpl in IH. f_equal. apply (IH (S k)).
Qed.

(** [np.cumsum] of a table is the table of the running sums of its columns. *)
Lemma np_cumsum_table (rows cols : nat) (a : nat -> nat -> float64) :
  np_cumsum (table rows cols a)
  = table rows cols (fun i j => psum (fun i' => a i' j) i).
Proof.
  unfold table. destruct rows as [|rows]; [reflexivity|].
  simpl. f_equal. apply (cumsum_from_rows cols a rows 0).
Qed.

Lemma psum_ext (a b : nat -> float64) (i : nat) :
  (forall k, (k <= i)%nat -> a k = b k) -> psum a i = psum b i.
Proof.
  induction i as [|i IH]; intros E; simpl.
  - apply E. lia.
  - rewrite IH by (intros; apply E; lia). rewrite (E (S i)) by lia. reflexivity.
Qed.

Lemma psum_Fin (x : nat -> R) (i : nat) :
  psum (fun k => Fin (x k)) i = Fin (sum_upto x i).
Proof. induction i as [|i IH]; simpl; [reflexivity | now rewrite IH]. Qed.

Lemma psum_NaN (a : nat -> float64) (i : nat) :
  (forall k, a k = NaN) -> psum a i = NaN.
Proof.
  intros E. destruct i as [|i]; simpl; [apply E|].
  rewrite (E (S i)). now destruct (psum a i).
Qed.

Lemma sum_upto_ext (f h : nat -> R) (i : nat) :
  (forall k, (k <= i)%nat -> f k = h k) -> sum_upto f i = sum_upto h i.
Proof.
  induction i as [|i IH]; intros E; simpl.
  - apply E. lia.
  - rewrite IH by (intros; apply E; lia). rewrite (E (S i)) by lia. reflexivity.
Qed.

Lemma sum_upto_const (c : R) (i : nat) :
  sum_upto (fun _ => c) i = (INR i + 1) * c.
Proof.
  induction i as [|i IH].
  - simpl. lra.
  - cbn [sum_upto]. rewrite IH, S_INR. lra.
Qed.

(** ** What [geo_paths] computes *)

(** With a positive step count and a non-negative path count the call
    returns, whatever the other arguments are. *)
Lemma geo_paths_returns (S T r q sigma : R) (steps N : Z) (g : rng) :
  (0 < steps)%Z -> (0 <= N)%Z ->
  geo_paths S T r q sigma steps N g =
  (Ok (table (Z.to_nat steps) (Z.to_nat N)
         (fun i j => np_exp (f_add (np_log (Fin S))
                       (psum (fun k => increment T r q sigma steps N g k j) i)))),
   advance (Z.to_nat steps * Z.to_nat N) g).
Proof.
  intros Hs HN. unfold geo_paths, np_random_normal.
  destruct (Z.eqb_spec steps 0) as [E|_]; [lia|].
  destruct (Z.ltb_spec steps 0) as [E|_]; [lia|].
  destruct (Z.ltb_spec N 0) as [E|_]; [lia|].
  cbn [orb]. cbv zeta. f_equal. f_equal.
  rewrite (table_map _ _ _ (fun zij => f_add _ (f_mul _ zij))).
  rewrite np_cumsum_table.
  rewrite (table_map _ _ _ (f_add (np_log (Fin S)))).
  rewrite (table_map _ _ _ np_exp).
  reflexivity.
Qed.

Lemma geo_paths_zero_steps (S T r q sigma : R) (N : Z) (g : rng) :
  geo_paths S T r q sigma 0 N g = (Raise ZeroDivisionError, g).
Proof. reflexivity. Qed.

Lemma geo_paths_negative_dim (S T r q sigma : R) (steps N : Z) (g : rng) :
  steps <> 0%Z -> (steps < 0 \/ N < 0)%Z ->
  geo_paths S T r q sigma steps N g = (Raise ValueError, g).
Proof.
  intros Hs Hneg. unfold geo_paths, np_random_normal.
  destruct (Z.eqb_spec steps 0) as [E|_]; [contradiction|].
  destruct (Z.ltb_spec steps 0) as [E|E]; [reflexivity|].
  destruct (Z.ltb_spec N 0) as [E'|E']; [reflexivity | lia].
Qed.

(** With a non-negative horizon the increments are finite. *)
Lemma increment_Fin (T r q sigma : R) (steps N : Z) (g : rng) (i j : nat) :
  0 <= T -> (0 < steps)%Z ->
  increment T r q sigma steps N g i j =
  Fin ((r - q - sigma ^ 2 / 2) * (T / IZR steps)
       + sigma * sqrt (T / IZR steps) * g (i * Z.to_nat N + j)%nat).
Proof.
  intros HT Hs. unfold increment, np_sqrt.
  assert (0 < IZR steps) by (apply IZR_lt; lia).
  assert (0 <= T / IZR steps).
  { apply Rmult_le_pos; [assumption|]. left. now apply Rinv_0_lt_compat. }
  destruct (Rlt_dec (T / IZR steps) 0) as [Hlt|_]; [lra|].
  reflexivity.
Qed.

Lemma geo_paths_valid (S T r q sigma : R) (steps N : Z) (g : rng) :
  0 < S -> 0 <= T -> (0 < steps)%Z -> (0 <= N)%Z ->
  fst (geo_paths S T r q sigma steps N g) =
  Ok (table (Z.to_nat steps) (Z.to_nat N)
        (fun i j => Fin (gbm_cell S T r q sigma steps N g i j))).
Proof.
  intros HS HT Hs HN. rewrite geo_paths_returns by assumption.
  cbn [fst]. f_equal. apply table_ext. intros i j _ _.
  rewrite (psum_ext _ (fun k => Fin ((r - q - sigma ^ 2 / 2) * (T / IZR steps)
       + sigma * sqrt (T / IZR steps) * g (k * Z.to_nat N + j)%nat)))
    by (intros; now apply increment_Fin).
  rewrite psum_Fin. unfold np_log.
  destruct (Rlt_dec 0 S) as [_|Hn]; [|contradiction].
  cbn [f_add np_exp]. unfold gbm_cell.
  now rewrite exp_plus, exp_ln.
Qed.

(** A negative horizon makes the square root, and with it every cell,
    NaN. *)
Lemma geo_paths_negative_horizon (S T r q sigma : R) (steps N : Z) (g : rng) :
  T < 0 -> (0 < steps)%Z -> (0 <= N)%Z ->
  fst (geo_paths S T r q sigma steps N g) =
  Ok (table (Z.to_nat steps) (Z.to_nat N) (fun _ _ => NaN)).
Proof.
  intros HT Hs HN. rewrite geo_paths_returns by assumption.
  cbn [fst]. f_equal. apply table_ext. intros i j _ _.
  rewrite psum_NaN.
  - now destruct (np_log (Fin S)).
  - intros k. unfold increment, np_sqrt.
    assert (0 < IZR steps) by (apply IZR_lt; lia).
    assert (T / IZR steps < 0).
    { assert (0 < / IZR steps) by now apply Rinv_0_lt_compat.
      unfold Rdiv. nra. }
    destruct (Rlt_dec (T / IZR steps) 0) as [_|Hn]; [reflexivity | contradiction].
Qed.

(** ** The discretization *)

(** C1. For S0 > 0, sigma > 0, T > 0, steps >= 1, N >= 1, any r and q, and
    any steps-by-N block z of draws handed out by the generator in row-major
    order, the call returns an array whose cell (i, j), for i < steps and
    j < N, is S0 * exp (sum over k <= i of
    (r - q - sigma^2/2) * (T/steps) + sigma * sqrt (T/steps) * z k j). *)
Theorem geo_paths_log_euler
  (S0 T r q sigma : R) (steps N : Z) (z : nat -> nat -> R) (g : rng) (i j : nat)
  (HS : 0 < S0) (Hsigma : 0 < sigma) (HT : 0 < T)
  (Hsteps : (1 <= steps)%Z) (HN : (1 <= N)%Z)
  (Hz : forall k l, (k < Z.to_nat steps)%nat -> (l < Z.to_nat N)%nat ->
                    g (k * Z.to_nat N + l)%nat = z k l)
  (Hi : (i < Z.to_nat steps)%nat) (Hj : (j < Z.to_nat N)%nat) :
  result_entry (fst (geo_paths S0 T r q sigma steps N g)) i j =
  Some (Fin (S0 * exp (sum_upto
                         (fun k => (r - q - sigma ^ 2 / 2) * (T / IZR steps)
                                   + sigma * sqrt (T / IZR steps) * z k j) i))).
Proof.
  rewrite geo_paths_valid by (try lra; lia).
  cbn [result_entry]. rewrite entry_table by assumption.
  unfold gbm_cell. do 4 f_equal.
  apply sum_upto_ext. intros k Hk. rewrite Hz by lia. reflexivity.
Qed.

Lemma geo_paths_log_euler_witness :
  result_entry (fst (geo_paths 100 1 0.05 0 0.2 2 1 zero_draws)) 1 0 =
  Some (Fin (100 * exp (sum_upto
                          (fun k => (0.05 - 0 - 0.2 ^ 2 / 2) * (1 / IZR 2)
                                    + 0.2 * sqrt (1 / IZR 2) * 0) 1))).
Proof.
  apply (geo_paths_log_euler 100 1 0.05 0 0.2 2 1 (fun _ _ => 0) zero_draws 1 0);
    try lra; try lia; try reflexivity.
  all: simpl; lia.
Defined.

(** C2. With S0 = 100, T = 1.0, r = 0.05, q = 0, sigma = 0.2, steps = 100,
    N = 1 and draws that are all zero, the cell at step i of the single
    path is 100 * exp ((0.05 - 0.02) * (i + 1) / 100), for every i in
    0..99: row 0 is already one step after S0. *)
Theorem geo_paths_pure_drift (i : nat) (Hi : (i < 100)%nat) :
  result_entry (fst (geo_paths 100 1.0 0.05 0 0.2 100 1 zero_draws)) i 0 =
  Some (Fin (100 * exp ((0.05 - 0.02) * (INR i + 1) / 100))).
Proof.
  rewrite geo_paths_valid by (try lra; lia).
  cbn [result_entry]. rewrite entry_table by (simpl; lia).
  unfold gbm_cell, zero_draws. do 4 f_equal.
  rewrite (sum_upto_ext _ (fun _ => 0.03 / 100)) by (intros; lra).
  rewrite sum_upto_const. lra.
Qed.

Lemma geo_paths_pure_drift_witness :
  result_entry (fst (geo_paths 100 1.0 0.05 0 0.2 100 1 zero_draws)) 99 0 =
  Some (Fin (100 * exp ((0.05 - 0.02) * (INR 99 + 1) / 100))).
Proof. apply (geo_paths_pure_drift 99). lia. Defined.

(** ** Shape and failures *)

Lemma Forall_table (rows cols : nat) (f : nat -> nat -> float64)
      (P : float64 -> Prop) :
  (forall i j, (i < rows)%nat -> (j < cols)%nat -> P (f i j)) ->
  Forall (Forall P) (table rows cols f).
Proof.
  intros H. unfold table. apply Forall_forall. intros row Hin.
  apply in_map_iff in Hin. destruct Hin as [i [<- Hi]]. apply in_seq in Hi.
  apply Forall_forall. intros v Hv.
  apply in_map_iff in Hv. destruct Hv as [j [<- Hj]]. apply in_seq in Hj.
  apply H; lia.
Qed.

(** C4, as the specification states it, fails: with sigma = -1 and every
    other argument valid the call raises nothing and returns a one-cell
    array. *)
Lemma geo_paths_negative_sigma_returns :
  -1 <= 0 /\
  fst (geo_paths 100 1 0.05 0 (-1) 1 1 zero_draws)
  = Ok [[Fin (100 * exp ((0.05 - 0 - (-1) ^ 2 / 2) * (1 / 1)
                          + -1 * sqrt (1 / 1) * 0))]].
Proof.
  split; [lra|].
  rewrite geo_paths_valid by (try lra; lia).
  reflexivity.
Qed.


(** In the embedding a call raises exactly on a step count below 1 or a
    negative path count. *)
Lemma geo_paths_raises_iff (S T r q sigma : R) (steps N : Z) (g : rng) :
  raises (fst (geo_paths S T r q sigma steps N g)) <-> (steps < 1 \/ N < 0)%Z.
Proof.
  destruct (Z.eq_dec steps 0) as [E0|E0].
  - subst steps. rewrite geo_paths_zero_steps. cbn. split; [lia | trivial].
  - destruct (Z_lt_ge_dec steps 0) as [Hs|Hs].
    + rewrite geo_paths_negative_dim by auto. cbn. split; [lia | trivial].
    + destruct (Z_lt_ge_dec N 0) as [Hn|Hn].
      * rewrite geo_paths_negative_dim by auto. cbn. split; [lia | trivial].
      * rewrite geo_paths_returns by lia. cbn. split; [tauto | lia].
Qed.

Lemma geo_paths_raise_keeps_rng (S T r q sigma : R) (steps N : Z) (g : rng) :
  (steps < 1 \/ N < 0)%Z -> snd (geo_paths S T r q sigma steps N g) = g.
Proof.
  intros H. destruct (Z.eq_dec steps 0) as [E0|E0].
  - subst steps. reflexivity.
  - rewrite geo_paths_negative_dim by (auto; lia). reflexivity.
Qed.

(** A call that returned had a positive step count and a path count that
    is not negative, and what it returned has shape (steps, N). *)
Lemma geo_paths_Ok_inv (S T r q sigma : R) (steps N : Z) (g : rng)
      (paths : array2) :
  fst (geo_paths S T r q sigma steps N g) = Ok paths ->
  (0 < steps)%Z /\ (0 <= N)%Z
  /\ paths = table (Z.to_nat steps) (Z.to_nat N)
        (fun i j => np_exp (f_add (np_log (Fin S))
                      (psum (fun k => increment T r q sigma steps N g k j) i))).
Proof.
  intros E.
  assert (Hr : ~ raises (fst (geo_paths S T r q sigma steps N g)))
    by (rewrite E; cbn; tauto).
  rewrite geo_paths_raises_iff in Hr.
  assert (Hs : (0 < steps)%Z) by lia. assert (HN : (0 <= N)%Z) by lia.
  rewrite geo_paths_returns in E by assumption. cbn [fst] in E.
  injection E as <-. repeat split; assumption.
Qed.

(** C4, amended.  The call has no InvalidParameter error and checks none
    of S0, sigma and T.  Whenever steps < 1 or N < 0 it fails, with no
    ensemble and before a single draw is consumed, and the failure at
    steps = 0 is Python's ZeroDivisionError; but whether a call fails does
    not depend on S0, on T or on the sign of sigma. *)
Theorem geo_paths_failures
  (S0 T r q sigma : R) (steps N : Z) (g : rng) :
  ((steps < 1 \/ N < 0)%Z ->
   raises (fst (geo_paths S0 T r q sigma steps N g))
   /\ snd (geo_paths S0 T r q sigma steps N g) = g)
  /\ (steps = 0%Z ->
      fst (geo_paths S0 T r q sigma steps N g) = Raise ZeroDivisionError)
  /\ (forall S0' T',
        raises (fst (geo_paths S0' T' r q sigma steps N g))
        <-> raises (fst (geo_paths S0 T r q sigma steps N g)))
  /\ (raises (fst (geo_paths S0 T r q (- sigma) steps N g))
      <-> raises (fst (geo_paths S0 T r q sigma steps N g))).
Proof.
  split; [|split; [|split]].
  - intros H. split; [now apply geo_paths_raises_iff|].
    now apply geo_paths_raise_keeps_rng.
  - intros ->. reflexivity.
  - intros S0' T'. now rewrite !geo_paths_raises_iff.
  - now rewrite !geo_paths_raises_iff.
Qed.

Lemma geo_paths_failures_witness :
  raises (fst (geo_paths 100 1 0.05 0 0.2 (-3) 10 zero_draws))
  /\ snd (geo_paths 100 1 0.05 0 0.2 (-3) 10 zero_draws) = zero_draws.
Proof.
  apply (proj1 (geo_paths_failures 100 1 0.05 0 0.2 (-3) 10 zero_draws)).
  left. lia.
Defined.

(** ** Terminal statistics *)

Lemma fold_add_Fin (xs : list R) (c : R) :
  fold_left f_add (map Fin xs) (Fin c) = Fin (c + Rsum xs).
Proof.
  revert c. induction xs as [|x xs IH]; intros c; simpl.
  - f_equal. lra.
  - rewrite IH. f_equal. lra.
Qed.

Lemma np_sum_Fin (xs : list R) : np_sum (map Fin xs) = Fin (Rsum xs).
Proof. unfold np_sum. rewrite fold_add_Fin. f_equal. lra. Qed.

Lemma np_mean_Fin (xs : list R) :
  xs <> [] -> np_mean (map Fin xs) = Fin (Rsum xs / INR (length xs)).
Proof.
  intros Hne. unfold np_mean. rewrite np_sum_Fin, length_map.
  destruct xs as [|x xs]; [contradiction | reflexivity].
Qed.

Lemma Rsum_squares_nonneg (xs : list R) (m : R) :
  0 <= Rsum (map (fun x => (x - m) ^ 2) xs).
Proof.
  induction xs as [|x xs IH]; cbn [map Rsum fold_right]; [lra|].
  fold (Rsum (map (fun x0 => (x0 - m) ^ 2) xs)).
  pose proof (pow2_ge_0 (x - m)). lra.
Qed.

Lemma np_var_Fin (xs : list R) :
  xs <> [] ->
  np_var (map Fin xs) =
  Fin (Rsum (map (fun x => (x - Rsum xs / INR (length xs)) ^ 2) xs)
       / INR (length xs)).
Proof.
  intros Hne. unfold np_var. rewrite np_mean_Fin by assumption.
  rewrite !map_map. cbn [f_sub f_neg f_add f_mul].
  rewrite (map_ext _ (fun x => Fin ((x - Rsum xs / INR (length xs)) ^ 2)))
    by (intros x; f_equal; ring).
  rewrite <- (map_map (fun x => (x - Rsum xs / INR (length xs)) ^ 2) Fin).
  rewrite np_sum_Fin, !length_map, Nat.sub_0_r.
  destruct xs as [|x xs]; [contradiction | reflexivity].
Qed.

Lemma last_row_app (rows : array2) (row : array1) :
  last_row (rows ++ [row]) = Ok row.
Proof.
  destruct rows as [|r0 rows]; [reflexivity|].
  cbn [app last_row]. f_equal. apply last_last.
Qed.

(** C5. For a last row of N >= 1 finite prices x_0 .. x_{N-1} the reported
    mean is (1/N) * sum x_j and the reported standard deviation is the
    population one, sqrt ((1/N) * sum (x_j - mean)^2): the sum of squares is
    divided by N, not by N - 1. *)
Theorem terminal_stats_population
  (rows : array2) (xs : list R) (Hne : xs <> []) :
  let n := INR (length xs) in
  let mean := 1 / n * Rsum xs in
  terminal_stats (rows ++ [map Fin xs]) =
  Ok (Fin mean,
      Fin (sqrt (1 / n * Rsum (map (fun x => (x - mean) ^ 2) xs)))).
Proof.
  intros n mean. unfold terminal_stats. rewrite last_row_app.
  unfold np_std. rewrite np_var_Fin, np_mean_Fin by assumption.
  fold n. replace (Rsum xs / n) with mean by (unfold mean; lra).
  set (ss := Rsum (map (fun x => (x - mean) ^ 2) xs)).
  assert (Hn : 0 < n).
  { unfold n. destruct xs as [|x xs]; [contradiction|].
    apply lt_0_INR. simpl. lia. }
  assert (Hss : 0 <= ss / n).
  { apply Rmult_le_pos; [apply Rsum_squares_nonneg|].
    left. now apply Rinv_0_lt_compat. }
  unfold np_sqrt. destruct (Rlt_dec (ss / n) 0) as [Hlt|_]; [lra|].
  do 4 f_equal. lra.
Qed.

Lemma terminal_stats_population_witness :
  terminal_stats ([] ++ [map Fin [1; 3]]) =
  Ok (Fin (1 / INR 2 * Rsum [1; 3]),
      Fin (sqrt (1 / INR 2
                 * Rsum (map (fun x => (x - 1 / INR 2 * Rsum [1; 3]) ^ 2)
                             [1; 3])))).
Proof. apply (terminal_stats_population [] [1; 3]). discriminate. Defined.

(** C6, as the specification states it, fails: on the ensemble of shape
    (1, 0), which the simulator returns for N = 0, the reduction raises
    nothing and returns a pair of NaNs. *)
Lemma terminal_stats_empty_returns :
  fst (geo_paths 100 1 0.05 0 0.2 1 0 zero_draws) = Ok [[]]
  /\ terminal_stats [[]] = Ok (NaN, NaN)
  /\ ~ raises (terminal_stats [[]]).
Proof.
  split; [rewrite geo_paths_returns by lia; reflexivity|].
  assert (E : terminal_stats [[]] = Ok (NaN, NaN)).
  { unfold terminal_stats, np_std, np_var, np_mean, np_sum. simpl.
    destruct (Rlt_dec 0 0) as [H|_]; [lra|]. reflexivity. }
  split; [exact E|]. rewrite E. simpl. tauto.
Qed.

(** C6, amended.  On an ensemble with no path (at least one row, the last
    row empty) the reduction raises nothing: both figures are NaN. *)
Theorem terminal_stats_empty (rows : array2) :
  terminal_stats (rows ++ [[]]) = Ok (NaN, NaN).
Proof.
  unfold terminal_stats. rewrite last_row_app.
  unfold np_std, np_var, np_mean, np_sum. simpl.
  destruct (Rlt_dec 0 0) as [H|_]; [lra|]. reflexivity.
Qed.

(** C7. On a single-path ensemble the reported standard deviation is
    exactly 0 and the reported mean is the sole terminal value. *)
Theorem terminal_stats_single (rows : array2) (x : R) :
  terminal_stats (rows ++ [[Fin x]]) = Ok (Fin x, Fin 0).
Proof.
  unfold terminal_stats. rewrite last_row_app.
  change [Fin x] with (map Fin [x]).
  unfold np_std. rewrite np_var_Fin, np_mean_Fin by discriminate.
  cbn [length map Rsum fold_right INR].
  replace ((x + 0) / 1) with x by lra.
  replace (((x - x) ^ 2 + 0) / 1) with 0 by lra.
  unfold np_sqrt. destruct (Rlt_dec 0 0) as [H|_]; [lra|].
  now rewrite sqrt_0.
Qed.

(** ** Independence of the columns, determinism *)

Lemma column_table (rows cols : nat) (f : nat -> nat -> float64) (j : nat) :
  column (table rows cols f) j =
  map (fun i => if (j <? cols)%nat then Some (f i j) else None) (seq 0 rows).
Proof.
  unfold column, table. rewrite map_map. apply map_ext. intros i.
  rewrite nth_error_map, nth_error_seq.
  now destruct (j <? cols)%nat.
Qed.

Lemma increment_agree (T r q sigma : R) (steps N : Z) (g g' : rng) (i j : nat) :
  g (i * Z.to_nat N + j)%nat = g' (i * Z.to_nat N + j)%nat ->
  increment T r q sigma steps N g i j = increment T r q sigma steps N g' i j.
Proof. intros E. unfold increment. now rewrite E. Qed.

(** C8. For fixed parameters and two draw blocks that agree on column j,
    the two outputs agree on column j: a column of the ensemble depends on
    the scalar parameters and on the same column of the draws only. *)
Theorem geo_paths_column_independent
  (S0 T r q sigma : R) (steps N : Z) (g g' : rng) (j : nat)
  (Hcol : forall i, (i < Z.to_nat steps)%nat ->
                    g (i * Z.to_nat N + j)%nat = g' (i * Z.to_nat N + j)%nat) :
  result_column (fst (geo_paths S0 T r q sigma steps N g)) j =
  result_column (fst (geo_paths S0 T r q sigma steps N g')) j.
Proof.
  destruct (Z.eq_dec steps 0) as [E0|E0];
    [subst steps; reflexivity|].
  destruct (Z_lt_ge_dec steps 0) as [Hs|Hs];
    [rewrite !geo_paths_negative_dim by auto; reflexivity|].
  destruct (Z_lt_ge_dec N 0) as [Hn|Hn];
    [rewrite !geo_paths_negative_dim by auto; reflexivity|].
  rewrite !geo_paths_returns by lia. cbn [fst result_column]. f_equal.
  rewrite !column_table. apply map_ext_in. intros i Hi. apply in_seq in Hi.
  destruct (j <? Z.to_nat N)%nat; [|reflexivity].
  do 3 f_equal. apply psum_ext. intros k Hk.
  apply increment_agree. apply Hcol. lia.
Qed.

Lemma geo_paths_column_independent_witness :
  result_column
    (fst (geo_paths 100 1 0.05 0 0.2 2 2 (fun k => if Nat.even k then 0 else 1))) 0 =
  result_column
    (fst (geo_paths 100 1 0.05 0 0.2 2 2 (fun k => if Nat.even k then 0 else 2))) 0.
Proof.
  apply (geo_paths_column_independent 100 1 0.05 0 0.2 2 2
           (fun k => if Nat.even k then 0 else 1)
           (fun k => if Nat.even k then 0 else 2) 0).
  intros i Hi.
  assert (E : i = 0%nat \/ i = 1%nat) by (simpl in Hi; lia).
  destruct E as [-> | ->]; reflexivity.
Defined.

(** C9. The output is a function of the parameters and of the steps * N
    draws consumed: two runs with the same parameters whose generators hand
    out the same first steps * N draws return identical results. *)
Theorem geo_paths_deterministic
  (S0 T r q sigma : R) (steps N : Z) (g g' : rng)
  (Hdraws : forall k, (k < Z.to_nat steps * Z.to_nat N)%nat -> g k = g' k) :
  fst (geo_paths S0 T r q sigma steps N g) =
  fst (geo_paths S0 T r q sigma steps N g').
Proof.
  destruct (Z.eq_dec steps 0) as [E0|E0];
    [subst steps; reflexivity|].
  destruct (Z_lt_ge_dec steps 0) as [Hs|Hs];
    [rewrite !geo_paths_negative_dim by auto; reflexivity|].
  destruct (Z_lt_ge_dec N 0) as [Hn|Hn];
    [rewrite !geo_paths_negative_dim by auto; reflexivity|].
  rewrite !geo_paths_returns by lia. cbn [fst]. f_equal.
  apply table_ext. intros i j Hi Hj.
  do 2 f_equal. apply psum_ext. intros k Hk.
  apply increment_agree. apply Hdraws. nia.
Qed.

Lemma geo_paths_deterministic_witness :
  fst (geo_paths 100 1 0.05 0 0.2 1 1 (fun k => INR k)) =
  fst (geo_paths 100 1 0.05 0 0.2 1 1 (fun k => INR k * INR k)).
Proof.
  apply (geo_paths_deterministic 100 1 0.05 0 0.2 1 1
           (fun k => INR k) (fun k => INR k * INR k)).
  intros k Hk. assert (k = 0%nat) by (simpl in Hk; lia). subst k.
  simpl. lra.
Defined.

(** ** The call site *)

(** C10. Whenever the page simulates (the ticker is not empty) it calls
    [geo_paths] with a yield of 0 and 100 steps, whatever the sidebar holds;
    so for a positive latest price and a non-negative horizon the cell
    (i, j) is S0 * exp (sum over k <= i of
    (r - sigma^2/2) * (T/100) + sigma * sqrt (T/100) * z k j): the per-step
    log-drift is (r - sigma^2/2) * (T/steps), with no yield term. *)
Theorem page_paths_zero_yield
  (sb : sidebar) (S0 : R) (g : rng) (i j : nat)
  (Hticker : stock_ticker sb <> EmptyString)
  (HS : 0 < S0) (HT : 0 <= T sb)
  (Hi : (i < 100)%nat) (Hj : (j < Z.to_nat (N sb))%nat) :
  page_paths sb S0 g =
    Some (geo_paths S0 (T sb) (r sb) 0 (sigma sb) 100 (N sb) g)
  /\ exists out,
       page_paths sb S0 g = Some out
       /\ result_entry (fst out) i j =
          Some (Fin (S0 * exp (sum_upto
                   (fun k => (r sb - sigma sb ^ 2 / 2) * (T sb / 100)
                             + sigma sb * sqrt (T sb / 100)
                               * g (k * Z.to_nat (N sb) + j)%nat) i))).
Proof.
  assert (E : page_paths sb S0 g =
              Some (geo_paths S0 (T sb) (r sb) 0 (sigma sb) 100 (N sb) g)).
  { unfold page_paths. destruct (stock_ticker sb) as [|c s];
      [contradiction | reflexivity]. }
  split; [exact E|]. eexists. split; [exact E|].
  rewrite geo_paths_valid by (try assumption; lia).
  cbn [result_entry]. rewrite entry_table by (simpl; lia).
  unfold gbm_cell. do 4 f_equal.
  apply sum_upto_ext. intros k _. f_equal. f_equal. lra.
Qed.

Lemma page_paths_zero_yield_witness :
  let sb := {| stock_ticker := "AAPL"; K := 253; r := 0.05; sigma := 0.2;
               T := 1.0; N := 100 |} in
  page_paths sb 230 zero_draws =
    Some (geo_paths 230 (T sb) (r sb) 0 (sigma sb) 100 (N sb) zero_draws)
  /\ exists out,
       page_paths sb 230 zero_draws = Some out
       /\ result_entry (fst out) 99 0 =
          Some (Fin (230 * exp (sum_upto
                   (fun k => (r sb - sigma sb ^ 2 / 2) * (T sb / 100)
                             + sigma sb * sqrt (T sb / 100)
                               * zero_draws (k * Z.to_nat (N sb) + 0)%nat) 99))).
Proof.
  intros sb.
  apply (page_paths_zero_yield sb 230 zero_draws 99 0).
  - discriminate.
  - lra.
  - simpl. lra.
  - lia.
  - simpl. lia.
Defined.

(** * Further properties of the simulator and of the page *)

(** ** The generator *)

(** A call that returns has consumed exactly steps * N draws; a call that
    raises has consumed none. *)
Theorem geo_paths_consumes (S0 T r q sigma : R) (steps N : Z) (g : rng) :
  snd (geo_paths S0 T r q sigma steps N g) =
  if ((steps <=? 0) || (N <? 0))%Z then g
  else advance (Z.to_nat steps * Z.to_nat N) g.
Proof.
  destruct (Z.eq_dec steps 0) as [E0|E0].
  - subst steps. reflexivity.
  - destruct (Z.leb_spec steps 0) as [Hs|Hs].
    + rewrite geo_paths_negative_dim by (auto; lia). reflexivity.
    + destruct (Z.ltb_spec N 0) as [Hn|Hn].
      * rewrite geo_paths_negative_dim by auto. reflexivity.
      * rewrite geo_paths_returns by lia. reflexivity.
Qed.

(** ** Closed forms *)

Lemma sum_upto_affine (a b : R) (z : nat -> R) (i : nat) :
  sum_upto (fun k => a + b * z k) i = (INR i + 1) * a + b * sum_upto z i.
Proof.
  induction i as [|i IH].
  - simpl. lra.
  - cbn [sum_upto]. rewrite IH, S_INR. lra.
Qed.

(** For S0 > 0, T >= 0 and steps >= 1 the cell (i, j) is the closed-form
    solution at the grid time t_i = (i + 1) * T / steps:
    S0 * exp ((r - q - sigma^2/2) * t_i + sigma * sqrt (T/steps) * W),
    W being the sum of the draws of column j down to row i. *)
Theorem geo_paths_closed_form
  (S0 T r q sigma : R) (steps N : Z) (g : rng) (i j : nat)
  (HS : 0 < S0) (HT : 0 <= T) (Hsteps : (1 <= steps)%Z)
  (Hi : (i < Z.to_nat steps)%nat) (Hj : (j < Z.to_nat N)%nat) :
  result_entry (fst (geo_paths S0 T r q sigma steps N g)) i j =
  Some (Fin (S0 * exp ((r - q - sigma ^ 2 / 2) * grid_time T steps i
                       + sigma * sqrt (T / IZR steps)
                         * sum_upto (fun k => g (k * Z.to_nat N + j)%nat) i))).
Proof.
  rewrite geo_paths_valid by (try assumption; lia).
  cbn [result_entry]. rewrite entry_table by assumption.
  unfold gbm_cell, grid_time. do 4 f_equal.
  rewrite (sum_upto_affine ((r - q - sigma ^ 2 / 2) * (T / IZR steps))
             (sigma * sqrt (T / IZR steps))).
  lra.
Qed.

Lemma geo_paths_closed_form_witness :
  result_entry (fst (geo_paths 100 1 0.05 0 0.2 4 2 (fun k => INR k))) 3 1 =
  Some (Fin (100 * exp ((0.05 - 0 - 0.2 ^ 2 / 2) * grid_time 1 4 3
                        + 0.2 * sqrt (1 / IZR 4)
                          * sum_upto (fun k => INR (k * Z.to_nat 2 + 1)) 3))).
Proof.
  apply (geo_paths_closed_form 100 1 0.05 0 0.2 4 2 (fun k => INR k) 3 1);
    try lra; simpl; lia.
Defined.

(** The terminal price of path j is
    S0 * exp ((r - q - sigma^2/2) * T + sigma * sqrt (T/steps) * W): on the
    last row the drift has accumulated over the whole horizon T. *)
Theorem geo_paths_terminal
  (S0 T r q sigma : R) (steps N : Z) (g : rng) (j : nat)
  (HS : 0 < S0) (HT : 0 <= T) (Hsteps : (1 <= steps)%Z)
  (Hj : (j < Z.to_nat N)%nat) :
  result_entry (fst (geo_paths S0 T r q sigma steps N g))
               (Z.to_nat steps - 1) j =
  Some (Fin (S0 * exp ((r - q - sigma ^ 2 / 2) * T
                       + sigma * sqrt (T / IZR steps)
                         * sum_upto (fun k => g (k * Z.to_nat N + j)%nat)
                                    (Z.to_nat steps - 1)))).
Proof.
  rewrite geo_paths_valid by (try assumption; lia).
  cbn [result_entry]. rewrite entry_table by (try assumption; lia).
  unfold gbm_cell. do 4 f_equal.
  rewrite (sum_upto_affine ((r - q - sigma ^ 2 / 2) * (T / IZR steps))
             (sigma * sqrt (T / IZR steps))).
  f_equal.
  assert (E : INR (Z.to_nat steps - 1) + 1 = IZR steps).
  { rewrite <- S_INR. replace (S (Z.to_nat steps - 1)) with (Z.to_nat steps) by lia.
    rewrite INR_IZR_INZ, Z2Nat.id by lia. reflexivity. }
  rewrite E. assert (0 < IZR steps) by (apply IZR_lt; lia).
  field. lra.
Qed.

Lemma geo_paths_terminal_witness :
  result_entry (fst (geo_paths 100 1 0.05 0 0.2 4 2 (fun k => INR k)))
               (Z.to_nat 4 - 1) 1 =
  Some (Fin (100 * exp ((0.05 - 0 - 0.2 ^ 2 / 2) * 1
                        + 0.2 * sqrt (1 / IZR 4)
                          * sum_upto (fun k => INR (k * Z.to_nat 2 + 1))
                                     (Z.to_nat 4 - 1)))).
Proof.
  apply (geo_paths_terminal 100 1 0.05 0 0.2 4 2 (fun k => INR k) 1);
    try lra; simpl; lia.
Defined.

(** With sigma = 0 the draws play no part: the cell (i, j) is the
    deterministic curve S0 * exp ((r - q) * t_i), whatever the generator
    hands out. *)
Theorem geo_paths_zero_volatility
  (S0 T r q : R) (steps N : Z) (g : rng) (i j : nat)
  (HS : 0 < S0) (HT : 0 <= T) (Hsteps : (1 <= steps)%Z)
  (Hi : (i < Z.to_nat steps)%nat) (Hj : (j < Z.to_nat N)%nat) :
  result_entry (fst (geo_paths S0 T r q 0 steps N g)) i j =
  Some (Fin (S0 * exp ((r - q) * grid_time T steps i))).
Proof.
  rewrite geo_paths_valid by (try assumption; lia).
  cbn [result_entry]. rewrite entry_table by assumption.
  unfold gbm_cell, grid_time. do 4 f_equal.
  rewrite (sum_upto_ext _ (fun _ => (r - q) * (T / IZR steps)))
    by (intros; lra).
  rewrite sum_upto_const. lra.
Qed.

Lemma geo_paths_zero_volatility_witness :
  result_entry (fst (geo_paths 100 1 0.05 0.01 0 4 2 (fun k => INR k))) 3 1 =
  Some (Fin (100 * exp ((0.05 - 0.01) * grid_time 1 4 3))).
Proof.
  apply (geo_paths_zero_volatility 100 1 0.05 0.01 4 2 (fun k => INR k) 3 1);
    try lra; simpl; lia.
Defined.

(** With T = 0 every cell of the array is S0 itself. *)
Theorem geo_paths_zero_horizon
  (S0 r q sigma : R) (steps N : Z) (g : rng)
  (HS : 0 < S0) (Hsteps : (1 <= steps)%Z) (HN : (0 <= N)%Z) :
  fst (geo_paths S0 0 r q sigma steps N g) =
  Ok (table (Z.to_nat steps) (Z.to_nat N) (fun _ _ => Fin S0)).
Proof.
  rewrite geo_paths_valid by (try assumption; try lra; lia).
  f_equal. apply table_ext. intros i j _ _. f_equal. unfold gbm_cell.
  rewrite (sum_upto_ext _ (fun _ => 0)).
  - rewrite sum_upto_const, Rmult_0_r, exp_0. lra.
  - intros k _. unfold Rdiv. rewrite !Rmult_0_l, sqrt_0. lra.
Qed.

Lemma geo_paths_zero_horizon_witness :
  fst (geo_paths 100 0 0.05 0 0.2 2 3 (fun k => INR k)) =
  Ok (table (Z.to_nat 2) (Z.to_nat 3) (fun _ _ => Fin 100)).
Proof.
  apply (geo_paths_zero_horizon 100 0.05 0 0.2 2 3 (fun k => INR k)); try lra; lia.
Defined.

(** ** One step of a path *)



(** ** Scaling and ordering *)

(** The array is linear in the start price: multiplying S0 by c > 0
    multiplies every cell by c, the draws being the same. *)
Theorem geo_paths_scales
  (S0 c T r q sigma : R) (steps N : Z) (g : rng) (i j : nat)
  (HS : 0 < S0) (Hc : 0 < c) (HT : 0 <= T)
  (Hi : (i < Z.to_nat steps)%nat) (Hj : (j < Z.to_nat N)%nat) :
  exists p,
    result_entry (fst (geo_paths S0 T r q sigma steps N g)) i j = Some (Fin p)
    /\ result_entry (fst (geo_paths (c * S0) T r q sigma steps N g)) i j =
       Some (Fin (c * p)).
Proof.
  exists (gbm_cell S0 T r q sigma steps N g i j).
  assert (0 < c * S0) by now apply Rmult_lt_0_compat.
  rewrite !geo_paths_valid by (try assumption; lia).
  cbn [result_entry]. rewrite !entry_table by assumption.
  split; [reflexivity|]. unfold gbm_cell. do 2 f_equal. ring.
Qed.

Lemma geo_paths_scales_witness :
  exists p,
    result_entry (fst (geo_paths 100 1 0.05 0 0.2 3 2 (fun k => INR k))) 2 1
    = Some (Fin p)
    /\ result_entry (fst (geo_paths (2 * 100) 1 0.05 0 0.2 3 2 (fun k => INR k))) 2 1
       = Some (Fin (2 * p)).
Proof.
  apply (geo_paths_scales 100 2 1 0.05 0 0.2 3 2 (fun k => INR k) 2 1);
    try lra; simpl; lia.
Defined.

Lemma sum_upto_le (f h : nat -> R) (i : nat) :
  (forall k, (k <= i)%nat -> f k <= h k) -> sum_upto f i <= sum_upto h i.
Proof.
  induction i as [|i IH]; intros E; cbn [sum_upto].
  - apply E. lia.
  - assert (sum_upto f i <= sum_upto h i) by (apply IH; intros; apply E; lia).
    assert (f (S i) <= h (S i)) by (apply E; lia). lra.
Qed.

(** With sigma >= 0 a path is monotone in its draws: if every draw of
    column j down to row i is at least as large under a second generator,
    so is the price of cell (i, j). *)
Theorem geo_paths_monotone_in_draws
  (S0 T r q sigma : R) (steps N : Z) (g g' : rng) (i j : nat)
  (HS : 0 < S0) (HT : 0 <= T) (Hsigma : 0 <= sigma)
  (Hi : (i < Z.to_nat steps)%nat) (Hj : (j < Z.to_nat N)%nat)
  (Hle : forall k, (k <= i)%nat ->
                   g (k * Z.to_nat N + j)%nat <= g' (k * Z.to_nat N + j)%nat) :
  exists p p',
    result_entry (fst (geo_paths S0 T r q sigma steps N g)) i j = Some (Fin p)
    /\ result_entry (fst (geo_paths S0 T r q sigma steps N g')) i j = Some (Fin p')
    /\ p <= p'.
Proof.
  exists (gbm_cell S0 T r q sigma steps N g i j),
         (gbm_cell S0 T r q sigma steps N g' i j).
  rewrite !geo_paths_valid by (try assumption; lia).
  cbn [result_entry]. rewrite !entry_table by assumption.
  split; [reflexivity|]. split; [reflexivity|].
  unfold gbm_cell. apply Rmult_le_compat_l; [lra|].
  assert (Hs : forall a b, a <= b -> exp a <= exp b).
  { intros a b [Hlt|Heq]; [left; now apply exp_increasing | subst; lra]. }
  apply Hs. apply sum_upto_le. intros k Hk.
  apply Rplus_le_compat_l. apply Rmult_le_compat_l.
  - apply Rmult_le_pos; [assumption | apply sqrt_pos].
  - now apply Hle.
Qed.

Lemma geo_paths_monotone_in_draws_witness :
  exists p p',
    result_entry (fst (geo_paths 100 1 0.05 0 0.2 3 2 (fun _ => 0))) 2 1
    = Some (Fin p)
    /\ result_entry (fst (geo_paths 100 1 0.05 0 0.2 3 2 (fun _ => 1))) 2 1
       = Some (Fin p')
    /\ p <= p'.
Proof.
  apply (geo_paths_monotone_in_draws 100 1 0.05 0 0.2 3 2
           (fun _ => 0) (fun _ => 1) 2 1); try lra; try (simpl; lia).
  intros k _. lra.
Defined.


(** ** Outside the valid range *)

(** With a negative start price, whatever a call returns has shape
    (steps, N) and holds NaN in every cell: the logarithm of the price is
    NaN, and NaN goes through the sum and the exponential. *)
Theorem geo_paths_negative_price
  (S0 T r q sigma : R) (steps N : Z) (g : rng) (paths : array2)
  (HS : S0 < 0)
  (Hret : fst (geo_paths S0 T r q sigma steps N g) = Ok paths) :
  has_shape paths (Z.to_nat steps) (Z.to_nat N)
  /\ Forall (Forall (fun v => v = NaN)) paths.
Proof.
  destruct (geo_paths_Ok_inv _ _ _ _ _ _ _ _ _ Hret) as [Hs [HN ->]].
  split; [apply table_has_shape|].
  apply Forall_table. intros i j _ _. unfold np_log.
  destruct (Rlt_dec 0 S0) as [H|_]; [lra|].
  destruct (Rlt_dec S0 0) as [_|H]; [|contradiction].
  reflexivity.
Qed.

Lemma geo_paths_negative_price_witness :
  has_shape (table 2 3 (fun _ _ => NaN)) (Z.to_nat 2) (Z.to_nat 3)
  /\ Forall (Forall (fun v => v = NaN)) (table 2 3 (fun _ _ => NaN)).
Proof.
  apply (geo_paths_negative_price (-5) 1 0.05 0 0.2 2 3 zero_draws); [lra|].
  rewrite geo_paths_returns by lia. cbn [fst]. f_equal.
  apply table_ext. intros i j _ _. unfold np_log.
  destruct (Rlt_dec 0 (-5)) as [H|_]; [lra|].
  destruct (Rlt_dec (-5) 0) as [_|H]; [reflexivity | lra].
Defined.

(** ** The reductions on finite rows *)

Lemma Rsum_permutation (xs ys : list R) :
  Permutation xs ys -> Rsum xs = Rsum ys.
Proof.
  induction 1 as [|x xs ys _ IH|x y xs|xs ys zs _ IH1 _ IH2];
    unfold Rsum in *; simpl; lra.
Qed.

Lemma Rsum_bounds (a b : R) (xs : list R) :
  Forall (fun x => a <= x <= b) xs ->
  INR (length xs) * a <= Rsum xs <= INR (length xs) * b.
Proof.
  induction 1 as [|x xs Hx _ IH].
  - simpl. lra.
  - unfold Rsum in *. cbn [fold_right length]. rewrite S_INR. lra.
Qed.

Lemma Rsum_nonneg_zero (xs : list R) :
  Forall (fun x => 0 <= x) xs -> Rsum xs = 0 -> Forall (fun x => x = 0) xs.
Proof.
  induction 1 as [|x xs Hx Hxs IH]; intros E; [constructor|].
  unfold Rsum in *. cbn [fold_right] in E.
  assert (0 <= fold_right Rplus 0 xs).
  { clear -Hxs. induction Hxs; simpl; lra. }
  constructor; [lra|]. apply IH. lra.
Qed.

Lemma Rsum_squares_zero (xs : list R) (m : R) :
  Forall (fun x => x = m) xs -> Rsum (map (fun x => (x - m) ^ 2) xs) = 0.
Proof.
  unfold Rsum. induction 1 as [|x xs Hx _ IH]; cbn [map fold_right];
    [reflexivity|].
  rewrite IH, Hx. ring.
Qed.

Lemma INR_length_pos {A : Type} (xs : list A) : xs <> [] -> 0 < INR (length xs).
Proof.
  intros Hne. destruct xs as [|x xs]; [contradiction|].
  apply lt_0_INR. simpl. lia.
Qed.

(** The two figures of a finite, non-empty last row. *)
Lemma terminal_stats_Fin (rows : array2) (xs : list R) :
  xs <> [] ->
  terminal_stats (rows ++ [map Fin xs]) =
  Ok (Fin (Rsum xs / INR (length xs)),
      Fin (sqrt (Rsum (map (fun x => (x - Rsum xs / INR (length xs)) ^ 2) xs)
                 / INR (length xs)))).
Proof.
  intros Hne. unfold terminal_stats. rewrite last_row_app.
  unfold np_std. rewrite np_var_Fin, np_mean_Fin by assumption.
  pose proof (INR_length_pos xs Hne) as Hn.
  set (m := Rsum xs / INR (length xs)).
  assert (0 <= Rsum (map (fun x => (x - m) ^ 2) xs) / INR (length xs)).
  { apply Rmult_le_pos; [apply Rsum_squares_nonneg|].
    left. now apply Rinv_0_lt_compat. }
  unfold np_sqrt.
  destruct (Rlt_dec (Rsum (map (fun x => (x - m) ^ 2) xs) / INR (length xs)) 0);
    [lra | reflexivity].
Qed.

Lemma terminal_stats_no_path (rows : array2) :
  terminal_stats (rows ++ [[]]) = Ok (NaN, NaN).
Proof.
  unfold terminal_stats. rewrite last_row_app.
  unfold np_std, np_var, np_mean, np_sum. simpl.
  destruct (Rlt_dec 0 0) as [H|_]; [lra|]. reflexivity.
Qed.

(** The two figures do not depend on the order of the paths: last rows that
    are permutations of one another give the same mean and the same
    standard deviation, whatever the rows above them are. *)
Theorem terminal_stats_permutation
  (rows rows' : array2) (xs ys : list R) (Hperm : Permutation xs ys) :
  terminal_stats (rows ++ [map Fin xs]) = terminal_stats (rows' ++ [map Fin ys]).
Proof.
  destruct xs as [|x xs].
  - apply Permutation_nil in Hperm. subst ys.
    cbn [map]. now rewrite !terminal_stats_no_path.
  - assert (Hy : ys <> []).
    { intros ->. apply Permutation_sym, Permutation_nil in Hperm. discriminate. }
    rewrite !terminal_stats_Fin by (assumption || discriminate).
    rewrite <- (Permutation_length Hperm), <- (Rsum_permutation _ _ Hperm).
    do 5 f_equal. apply Rsum_permutation. now apply Permutation_map.
Qed.

Lemma terminal_stats_permutation_witness :
  terminal_stats ([] ++ [map Fin [1; 2; 3]]) =
  terminal_stats ([[Fin 7]] ++ [map Fin [2; 1; 3]]).
Proof.
  apply (terminal_stats_permutation [] [[Fin 7]] [1; 2; 3] [2; 1; 3]).
  apply perm_swap.
Defined.

Lemma Rmean_between (xs : list R) (a b : R) :
  xs <> [] -> Forall (fun x => a <= x <= b) xs ->
  a <= Rsum xs / INR (length xs) <= b.
Proof.
  intros Hne Hin.
  pose proof (INR_length_pos xs Hne) as Hn.
  pose proof (Rsum_bounds a b xs Hin) as Hsum.
  set (n := INR (length xs)) in *.
  assert (Hinv : 0 < / n) by now apply Rinv_0_lt_compat.
  unfold Rdiv. split.
  - replace a with (n * a * / n) by (field; lra).
    apply Rmult_le_compat_r; lra.
  - replace b with (n * b * / n) by (field; lra).
    apply Rmult_le_compat_r; lra.
Qed.

Lemma Rstd_between (xs : list R) (a b m : R) :
  xs <> [] -> Forall (fun x => a <= x <= b) xs -> a <= m <= b ->
  0 <= sqrt (Rsum (map (fun x => (x - m) ^ 2) xs) / INR (length xs)) <= b - a.
Proof.
  intros Hne Hin Hm.
  pose proof (INR_length_pos xs Hne) as Hn.
  set (n := INR (length xs)) in *.
  assert (Hinv : 0 < / n) by now apply Rinv_0_lt_compat.
  split; [apply sqrt_pos|].
  assert (Hab : 0 <= b - a) by lra.
  rewrite <- (sqrt_pow2 (b - a)) by assumption.
  apply sqrt_le_1_alt.
  assert (Hsq : Forall (fun y => 0 <= y <= (b - a) ^ 2)
                       (map (fun x => (x - m) ^ 2) xs)).
  { apply Forall_forall. intros y Hy. apply in_map_iff in Hy.
    destruct Hy as [x [<- Hx]]. rewrite Forall_forall in Hin.
    specialize (Hin x Hx). split; [apply pow2_ge_0|]. nra. }
  pose proof (Rsum_bounds 0 ((b - a) ^ 2) _ Hsq) as B.
  rewrite length_map in B. fold n in B.
  unfold Rdiv. replace ((b - a) ^ 2) with (n * (b - a) ^ 2 * / n) by (field; lra).
  apply Rmult_le_compat_r; lra.
Qed.


(** If every terminal price lies in [a, b] then so does the mean, and the
    standard deviation lies in [0, b - a]. *)
Theorem terminal_stats_bounds
  (rows : array2) (xs : list R) (a b : R)
  (Hne : xs <> []) (Hin : Forall (fun x => a <= x <= b) xs) :
  exists m s,
    terminal_stats (rows ++ [map Fin xs]) = Ok (Fin m, Fin s)
    /\ a <= m <= b /\ 0 <= s <= b - a.
Proof.
  rewrite terminal_stats_Fin by assumption.
  set (m := Rsum xs / INR (length xs)).
  assert (Hm : a <= m <= b) by now apply Rmean_between.
  exists m, (sqrt (Rsum (map (fun x => (x - m) ^ 2) xs) / INR (length xs))).
  split; [reflexivity|]. split; [exact Hm|].
  now apply Rstd_between.
Qed.

Lemma terminal_stats_bounds_witness :
  exists m s,
    terminal_stats ([] ++ [map Fin [1; 3]]) = Ok (Fin m, Fin s)
    /\ 1 <= m <= 3 /\ 0 <= s <= 3 - 1.
Proof.
  apply (terminal_stats_bounds [] [1; 3] 1 3).
  - discriminate.
  - repeat constructor; lra.
Defined.

(** The standard deviation is 0 exactly when all the terminal prices are
    equal (to the mean). *)
Theorem terminal_stats_zero_std
  (rows : array2) (xs : list R) (Hne : xs <> []) :
  exists m s,
    terminal_stats (rows ++ [map Fin xs]) = Ok (Fin m, Fin s)
    /\ (s = 0 <-> Forall (fun x => x = m) xs).
Proof.
  rewrite terminal_stats_Fin by assumption.
  pose proof (INR_length_pos xs Hne) as Hn.
  set (n := INR (length xs)) in *.
  set (m := Rsum xs / n).
  set (ss := Rsum (map (fun x => (x - m) ^ 2) xs)).
  assert (Hss : 0 <= ss) by apply Rsum_squares_nonneg.
  assert (Hinv : 0 < / n) by now apply Rinv_0_lt_compat.
  do 2 eexists. split; [reflexivity|]. split.
  - intros E. apply sqrt_eq_0 in E; [|unfold Rdiv; nra].
    assert (E0 : ss = 0).
    { unfold Rdiv in E. apply Rmult_integral in E. destruct E; lra. }
    apply Rsum_nonneg_zero in E0.
    + rewrite Forall_forall in E0. apply Forall_forall. intros x Hx.
      assert (Hz : (x - m) ^ 2 = 0).
      { apply E0. apply in_map_iff. now exists x. }
      assert (x - m = 0) by nra. lra.
    + apply Forall_forall. intros y Hy. apply in_map_iff in Hy.
      destruct Hy as [x [<- _]]. apply pow2_ge_0.
  - intros Hall.
    assert (E0 : ss = 0).
    { unfold ss. now apply Rsum_squares_zero. }
    rewrite E0. unfold Rdiv. rewrite Rmult_0_l. apply sqrt_0.
Qed.

Lemma terminal_stats_zero_std_witness :
  exists m s,
    terminal_stats ([] ++ [map Fin [2; 2]]) = Ok (Fin m, Fin s)
    /\ (s = 0 <-> Forall (fun x => x = m) [2; 2]).
Proof. apply (terminal_stats_zero_std [] [2; 2]). discriminate. Defined.

(** ** NaN in the last row *)

Lemma f_add_NaN_r (a : float64) : f_add a NaN = NaN.
Proof. now destruct a. Qed.

Lemma fold_add_NaN (l : array1) : fold_left f_add l NaN = NaN.
Proof. induction l as [|v l IH]; [reflexivity | exact IH]. Qed.

Lemma fold_add_In_NaN (l : array1) (acc : float64) :
  In NaN l -> fold_left f_add l acc = NaN.
Proof.
  revert acc. induction l as [|v l IH]; intros acc Hin; [contradiction|].
  destruct Hin as [-> | Hin]; cbn [fold_left].
  - rewrite f_add_NaN_r. apply fold_add_NaN.
  - now apply IH.
Qed.

Lemma div_count_NaN (n : nat) : div_count NaN n = NaN.
Proof. now destruct n. Qed.

Lemma np_stats_NaN (row : array1) :
  In NaN row -> np_mean row = NaN /\ np_std row = NaN.
Proof.
  intros Hin.
  assert (Em : np_mean row = NaN).
  { unfold np_mean, np_sum. rewrite fold_add_In_NaN by assumption.
    apply div_count_NaN. }
  split; [exact Em|].
  unfold np_std, np_var. rewrite Em, map_map.
  unfold np_sum. rewrite fold_add_In_NaN.
  - now rewrite div_count_NaN.
  - apply in_map_iff. exists NaN. split; [reflexivity | assumption].
Qed.

(** One NaN among the terminal prices makes both figures NaN. *)
Theorem terminal_stats_nan (rows : array2) (row : array1) (Hin : In NaN row) :
  terminal_stats (rows ++ [row]) = Ok (NaN, NaN).
Proof.
  unfold terminal_stats. rewrite last_row_app.
  destruct (np_stats_NaN row Hin) as [-> ->]. reflexivity.
Qed.

Lemma terminal_stats_nan_witness :
  terminal_stats ([] ++ [[Fin 1; NaN; Fin 2]]) = Ok (NaN, NaN).
Proof.
  apply (terminal_stats_nan [] [Fin 1; NaN; Fin 2]). simpl. tauto.
Defined.

(** ** The simulator followed by the reductions *)

Lemma table_snoc (rows cols : nat) (f : nat -> nat -> float64) :
  table (S rows) cols f =
  table rows cols f ++ [map (fun j => f rows j) (seq 0 cols)].
Proof. unfold table. now rewrite seq_S, map_app. Qed.








(** With T < 0 and N >= 1, whatever a call returns holds NaN in every
    cell, and the mean and the standard deviation of its last row are both
    NaN. *)
Theorem geo_paths_negative_horizon_stats
  (S0 T r q sigma : R) (steps N : Z) (g : rng) (paths : array2)
  (HT : T < 0) (HN : (1 <= N)%Z)
  (Hret : fst (geo_paths S0 T r q sigma steps N g) = Ok paths) :
  Forall (Forall (fun v => v = NaN)) paths
  /\ terminal_stats paths = Ok (NaN, NaN).
Proof.
  destruct (geo_paths_Ok_inv _ _ _ _ _ _ _ _ _ Hret) as [Hs [_ _]].
  rewrite geo_paths_negative_horizon in Hret by (assumption || lia).
  injection Hret as <-.
  split; [apply Forall_table; reflexivity|].
  replace (Z.to_nat steps) with (Datatypes.S (Z.to_nat steps - 1)) by lia.
  rewrite table_snoc. unfold terminal_stats. rewrite last_row_app.
  destruct (np_stats_NaN (map (fun _ => NaN) (seq 0 (Z.to_nat N)))) as [-> ->];
    [|reflexivity].
  apply in_map_iff. exists 0%nat. split; [reflexivity|]. apply in_seq. lia.
Qed.

Lemma geo_paths_negative_horizon_stats_witness :
  Forall (Forall (fun v => v = NaN)) (table 2 3 (fun _ _ => NaN))
  /\ terminal_stats (table 2 3 (fun _ _ => NaN)) = Ok (NaN, NaN).
Proof.
  apply (geo_paths_negative_horizon_stats 100 (-1) 0.05 0 0.2 2 3 zero_draws);
    [lra | lia |].
  apply geo_paths_negative_horizon; [lra | lia | lia].
Defined.

(** ** Bounds for bounded draws *)










(** ** One run of the page *)

Lemma page_paths_called (sb : sidebar) (S0 : R) (g : rng) :
  stock_ticker sb <> EmptyString ->
  page_paths sb S0 g =
  Some (geo_paths S0 (T sb) (r sb) 0 (sigma sb) steps (N sb) g).
Proof.
  intros Hticker. unfold page_paths.
  destruct (stock_ticker sb); [contradiction | reflexivity].
Qed.






(** The simulation and the two reductions of a run with a ticker never
    fail with ZeroDivisionError or IndexError: the step count is fixed at
    100, and [paths[-1]] always finds a row.  A negative number of
    simulations does make the run fail. *)
Theorem page_run_failures
  (sb : sidebar) (S0 : R) (g : rng)
  (Hticker : stock_ticker sb <> EmptyString) :
  page_stats sb S0 g <> Some (Raise ZeroDivisionError)
  /\ page_stats sb S0 g <> Some (Raise IndexError)
  /\ ((N sb < 0)%Z -> exists e, page_stats sb S0 g = Some (Raise e)).
Proof.
  unfold page_stats. rewrite page_paths_called by assumption.
  destruct (Z_lt_ge_dec (N sb) 0) as [Hn|Hn].
  - rewrite geo_paths_negative_dim by (unfold steps; lia || auto).
    repeat split; try discriminate. intros _. now exists ValueError.
  - rewrite geo_paths_returns by (unfold steps; lia).
    change (Z.to_nat steps) with (Datatypes.S 99).
    rewrite table_snoc. unfold terminal_stats. rewrite last_row_app.
    repeat split; try discriminate. lia.
Qed.

Lemma page_run_failures_witness :
  let sb := {| stock_ticker := "AAPL"; K := 253; r := 0.05; sigma := 0.2;
               T := 1.0; N := -1 |} in
  page_stats sb 230 zero_draws <> Some (Raise ZeroDivisionError)
  /\ page_stats sb 230 zero_draws <> Some (Raise IndexError)
  /\ ((N sb < 0)%Z -> exists e, page_stats sb 230 zero_draws = Some (Raise e)).
Proof.
  intros sb. apply (page_run_failures sb 230 zero_draws). discriminate.
Defined.

(** ** What the parameters enter through *)

(** The rate and the yield enter through their difference only: two calls
    with the same r - q return the same result, valid arguments or not. *)
Theorem geo_paths_net_rate
  (S0 T r q r' q' sigma : R) (steps N : Z) (g : rng)
  (Hnet : r - q = r' - q') :
  geo_paths S0 T r q sigma steps N g = geo_paths S0 T r' q' sigma steps N g.
Proof.
  unfold geo_paths.
  replace (r - q - sigma ^ 2 / 2) with (r' - q' - sigma ^ 2 / 2) by lra.
  reflexivity.
Qed.

Lemma geo_paths_net_rate_witness :
  geo_paths 100 1 0.05 0.01 0.2 3 2 zero_draws =
  geo_paths 100 1 0.04 0 0.2 3 2 zero_draws.
Proof.
  apply (geo_paths_net_rate 100 1 0.05 0.01 0.04 0 0.2 3 2 zero_draws). lra.
Defined.

Lemma increment_flip (T r q sigma : R) (steps N : Z) (g : rng) (i j : nat) :
  increment T r q (- sigma) steps N g i j =
  increment T r q sigma steps N (fun k => - g k) i j.
Proof.
  unfold increment, np_sqrt.
  replace ((- sigma) ^ 2) with (sigma ^ 2) by ring.
  destruct (Rlt_dec (T / IZR steps) 0); [reflexivity|].
  cbn [f_mul f_add]. do 2 f_equal. ring.
Qed.

(** A negative volatility is a positive one with every draw negated: the
    call with - sigma returns what the call with sigma returns on the
    negated draws.  This is why sigma < 0 is not an error of the code. *)
Theorem geo_paths_volatility_sign
  (S0 T r q sigma : R) (steps N : Z) (g : rng) :
  fst (geo_paths S0 T r q (- sigma) steps N g) =
  fst (geo_paths S0 T r q sigma steps N (fun k => - g k)).
Proof.
  destruct (Z.eq_dec steps 0) as [E0|E0];
    [subst steps; reflexivity|].
  destruct (Z_lt_ge_dec steps 0) as [Hs|Hs];
    [rewrite !geo_paths_negative_dim by auto; reflexivity|].
  destruct (Z_lt_ge_dec N 0) as [Hn|Hn];
    [rewrite !geo_paths_negative_dim by auto; reflexivity|].
  rewrite !geo_paths_returns by lia. cbn [fst]. f_equal.
  apply table_ext. intros i j _ _. do 2 f_equal.
  apply psum_ext. intros k _. apply increment_flip.
Qed.
